(** * ts-service-locator: the [ServiceLocator] class of [src/index.ts]

    A shallow embedding of the singleton registry and the proofs of its
    specification.  The JavaScript heap is explicit: a [ServiceLocator]
    is an object at an address, the static field [ServiceLocator.instance]
    holds a reference to it, and the methods take their receiver [this] as
    an address, so that two references to the registry alias one object. *)

From stdpp Require Import gmap strings list fin_maps.

(** ** Values, objects and the world *)

(** Heap addresses of objects. *)
Definition loc := positive.

(** What an [any]-typed slot can hold: primitives are stored by value,
    objects by reference.  The registry never looks inside a value. *)
Inductive value :=
| VUndefined
| VNull
| VBool (b : bool)
| VString (s : string)
| VRef (l : loc).

#[global] Instance value_eq_dec : EqDecision value.
Proof. solve_decision. Defined.

(** Objects of the heap.  [ServiceLocator services] is an instance of the
    class, with its private field [services = new Map<string, any>()]; the
    [Map] is owned by the instance and never handed out, so it is stored in
    place.  [Foreign] is any other object (a logger, an API client). *)
Inductive object :=
| ServiceLocator (services : gmap string value)
| Foreign.

(** Exceptions.  [Error message] is [new Error(message)].  [TypeError] is
    what the engine raises when a method body reads [this.services.has]
    on a receiver that has no [services] field. *)
Inductive exn :=
| Error (message : string)
| TypeError.

(** The state of the process: the static field [ServiceLocator.instance]
    ([None] is [undefined], its value before the first assignment), the
    heap, and the lines written by [console.warn], oldest first. *)
Record world := mkWorld {
  ServiceLocator_instance : option loc;
  heap : gmap loc object;
  console : list string
}.

Definition initial_world : world :=
  {| ServiceLocator_instance := None; heap := ∅; console := [] |}.

(** ** The monad of method bodies: state and exceptions *)

Inductive outcome (A : Type) :=
| Return (a : A)
| Throw (e : exn).
Arguments Return {A} a.
Arguments Throw {A} e.

Definition M (A : Type) : Type := world → outcome A * world.

Definition ret {A} (a : A) : M A := λ w, (Return a, w).

Definition throw {A} (e : exn) : M A := λ w, (Throw e, w).

Definition bind {A B} (c : M A) (k : A → M B) : M B := λ w,
  match c w with
  | (Return a, w') => k a w'
  | (Throw e, w') => (Throw e, w')
  end.

Notation "x <- c ;; k" := (bind c (λ x, k))
  (at level 100, c at next level, right associativity).
Notation "c ;;; k" := (bind c (λ _, k))
  (at level 100, right associativity).

(** ** Primitives used by the class *)

(** [this.services] *)
Definition this_services (this : loc) : M (gmap string value) := λ w,
  match heap w !! this with
  | Some (ServiceLocator services) => (Return services, w)
  | _ => (Throw TypeError, w)
  end.

(** [this.services.has(key)]: true for every key that was set, also when
    the value set is [undefined]. *)
Definition Map_has (this : loc) (key : string) : M bool :=
  services <- this_services this ;;
  ret (bool_decide (is_Some (services !! key))).

(** [this.services.get(key)]: [undefined] for a key that was never set. *)
Definition Map_get (this : loc) (key : string) : M value :=
  services <- this_services this ;;
  ret (default VUndefined (services !! key)).

(** [this.services.set(key, instance)] mutates the map in place. *)
Definition Map_set (this : loc) (key : string) (instance : value) : M unit :=
  services <- this_services this ;;
  λ w, (Return (),
        {| ServiceLocator_instance := ServiceLocator_instance w;
           heap := <[this := ServiceLocator (<[key := instance]> services)]> (heap w);
           console := console w |}).

(** [console.warn(line)] *)
Definition console_warn (line : string) : M unit := λ w,
  (Return (),
   {| ServiceLocator_instance := ServiceLocator_instance w;
      heap := heap w;
      console := console w ++ [line] |}).

(** [new ServiceLocator()]: a fresh object whose map is empty. *)
Definition new_ServiceLocator : M loc := λ w,
  let l := fresh (dom (heap w)) in
  (Return l,
   {| ServiceLocator_instance := ServiceLocator_instance w;
      heap := <[l := ServiceLocator ∅]> (heap w);
      console := console w |}).

(** Some other part of the program creates an object of its own, such as
    [new ConsoleLogger()]. *)
Definition new_Foreign : M loc := λ w,
  let l := fresh (dom (heap w)) in
  (Return l,
   {| ServiceLocator_instance := ServiceLocator_instance w;
      heap := <[l := Foreign]> (heap w);
      console := console w |}).

Definition read_instance : M (option loc) := λ w,
  (Return (ServiceLocator_instance w), w).

Definition write_instance (l : loc) : M unit := λ w,
  (Return (),
   {| ServiceLocator_instance := Some l;
      heap := heap w;
      console := console w |}).

(** ** The class *)

Definition overwrite_warning (key : string) : string :=
  "Service with key '" +:+ key +:+ "' is already registered. Overwriting.".

Definition not_found_message (key : string) : string :=
  "Service with key '" +:+ key +:+ "' not found.".

(** [static getInstance()]: the field is tested for truthiness; a
    reference is always truthy, [undefined] is not. *)
Definition getInstance : M loc :=
  i <- read_instance ;;
  match i with
  | None => l <- new_ServiceLocator ;; write_instance l ;;; ret l
  | Some l => ret l
  end.

Definition register (this : loc) (key : string) (instance : value) : M unit :=
  present <- Map_has this key ;;
  (if present then console_warn (overwrite_warning key) else ret ()) ;;;
  Map_set this key instance.

Definition get (this : loc) (key : string) : M value :=
  present <- Map_has this key ;;
  if negb present then throw (Error (not_found_message key))
  else Map_get this key.

Definition has (this : loc) (key : string) : M bool :=
  Map_has this key.

(** ** Histories of calls *)

Inductive call :=
| GetInstance
| Register (this : loc) (key : string) (instance : value)
| Get (this : loc) (key : string)
| Has (this : loc) (key : string)
| NewForeign.

(** The world after one call, whatever it returned or threw. *)
Definition exec (c : call) (w : world) : world :=
  match c with
  | GetInstance => (getInstance w).2
  | Register this key instance => (register this key instance w).2
  | Get this key => (get this key w).2
  | Has this key => (has this key w).2
  | NewForeign => (new_Foreign w).2
  end.

Fixpoint run (cs : list call) (w : world) : world :=
  match cs with
  | [] => w
  | c :: cs' => run cs' (exec c w)
  end.

(** [never_registered key cs]: no call of the history registers [key]. *)
Fixpoint never_registered (key : string) (cs : list call) : bool :=
  match cs with
  | [] => true
  | Register _ key' _ :: cs' =>
      negb (bool_decide (key' = key)) && never_registered key cs'
  | _ :: cs' => never_registered key cs'
  end.

(** [has] called [n] times in a row: the list of the results, and the
    world at the end. *)
Fixpoint has_repeatedly (n : nat) (this : loc) (key : string) (w : world)
  : list (outcome bool) * world :=
  match n with
  | O => ([], w)
  | S n' =>
      let '(r, w') := has this key w in
      let '(rs, w'') := has_repeatedly n' this key w' in
      (r :: rs, w'')
  end.

(** [includes needle hay]: [hay.includes(needle)], the substring test. *)
Fixpoint includes (needle hay : string) : bool :=
  String.prefix needle hay ||
  match hay with
  | EmptyString => false
  | String _ hay' => includes needle hay'
  end.

(** [is_locator w this services]: [this] refers to a [ServiceLocator]
    whose map is [services]. *)
Definition is_locator (w : world) (this : loc) (services : gmap string value) : Prop :=
  heap w !! this = Some (ServiceLocator services).

(** The world [register] leaves behind when it is called on the locator
    [this], whose map was [services]: the map gains the binding, and
    the console gains the warning when the key was bound already. *)
Definition registered (w : world) (this : loc) (services : gmap string value)
    (key : string) (instance : value) : world :=
  {| ServiceLocator_instance := ServiceLocator_instance w;
     heap := <[this := ServiceLocator (<[key := instance]> services)]> (heap w);
     console := console w ++
       (if bool_decide (is_Some (services !! key))
        then [overwrite_warning key] else []) |}.

(** ** Invariants of the worlds the program can reach *)

(** The static field, once assigned, refers to a [ServiceLocator]. *)
Definition wf (w : world) : Prop :=
  ∀ l, ServiceLocator_instance w = Some l → ∃ services, is_locator w l services.

(** No locator of the heap binds [key]. *)
Definition absent (key : string) (w : world) : Prop :=
  ∀ l services, is_locator w l services → services !! key = None.

(** The locator [this] binds [key]. *)
Definition present (this : loc) (key : string) (w : world) : Prop :=
  ∃ services, is_locator w this services ∧ is_Some (services !! key).

(** ** One call as a transition *)

(** Every way a call can change the world. *)
Inductive step : call → world → world → Prop :=
| step_getInstance_first w :
    ServiceLocator_instance w = None →
    step GetInstance w
      {| ServiceLocator_instance := Some (fresh (dom (heap w)));
         heap := <[fresh (dom (heap w)) := ServiceLocator ∅]> (heap w);
         console := console w |}
| step_getInstance_again w l :
    ServiceLocator_instance w = Some l →
    step GetInstance w w
| step_register w this services key instance :
    is_locator w this services →
    step (Register this key instance) w (registered w this services key instance)
| step_register_stuck w this key instance :
    (∀ services, ¬ is_locator w this services) →
    step (Register this key instance) w w
| step_get w this key : step (Get this key) w w
| step_has w this key : step (Has this key) w w
| step_new w :
    step NewForeign w
      {| ServiceLocator_instance := ServiceLocator_instance w;
         heap := <[fresh (dom (heap w)) := Foreign]> (heap w);
         console := console w |}.

(** ** Measures of a history *)

(** The value that the history registered last under [key] through the
    receiver [this]; [None] when it registered none. *)
Fixpoint last_registered (this : loc) (key : string) (cs : list call)
  : option value :=
  match cs with
  | [] => None
  | c :: cs' =>
      match last_registered this key cs' with
      | Some v => Some v
      | None =>
          match c with
          | Register this' key' instance =>
              if bool_decide (this' = this ∧ key' = key)
              then Some instance else None
          | _ => None
          end
      end
  end.

(** How often the history calls [register] with [key]. *)
Fixpoint times_registered (key : string) (cs : list call) : nat :=
  match cs with
  | [] => 0
  | Register _ key' _ :: cs' =>
      (if bool_decide (key' = key) then 1 else 0) + times_registered key cs'
  | _ :: cs' => times_registered key cs'
  end.

(** How many [register] calls of the history, run from [w], return
    normally. *)
Fixpoint registrations (cs : list call) (w : world) : nat :=
  match cs with
  | [] => 0
  | c :: cs' =>
      match c with
      | Register this key instance =>
          match (register this key instance w).1 with
          | Return _ => 1
          | Throw _ => 0
          end
      | _ => 0
      end + registrations cs' (exec c w)
  end.

(** The number of keys bound by the registry of the static field; 0
    while the field is unassigned. *)
Definition bound (w : world) : nat :=
  match ServiceLocator_instance w with
  | Some l =>
      match heap w !! l with
      | Some (ServiceLocator services) => size services
      | _ => 0
      end
  | None => 0
  end.

(** Every [ServiceLocator] of the heap is the one the static field
    refers to. *)
Definition singleton (w : world) : Prop :=
  ∀ l services, is_locator w l services → ServiceLocator_instance w = Some l.

(** What the history [pre] accounts for in [w]: a bound key was
    registered by it, and a console line is the overwrite warning of a
    key it registered twice or more. *)
Definition accounted (pre : list call) (w : world) : Prop :=
  (∀ l services key, is_locator w l services → is_Some (services !! key) →
     1 ≤ times_registered key pre) ∧
  (∀ line, line ∈ console w →
     ∃ key, line = overwrite_warning key ∧ 2 ≤ times_registered key pre).

(** Every entry of a registry of [w] was put there by a [register] call
    of the history [pre], with that receiver, key and value. *)
Definition entries_registered (pre : list call) (w : world) : Prop :=
  ∀ l services key v, is_locator w l services → services !! key = Some v →
    Register l key v ∈ pre.

(** ** Sample worlds for the concrete instances *)

(** The registry right after the first [getInstance()]: it lives at
    address 1 and binds nothing. *)
Definition fresh_registry : world := exec GetInstance initial_world.

(** The same registry after [register("Logger", loggerA)], the logger
    being the object at address 7. *)
Definition logger_registry : world :=
  exec (Register 1%positive "Logger" (VRef 7%positive)) fresh_registry.

(** ** Equations of the methods *)

Ltac unfold_methods :=
  unfold get, has, register, getInstance, Map_has, Map_get, Map_set,
    this_services, new_ServiceLocator, new_Foreign, read_instance,
    write_instance, console_warn, bind, ret, throw, is_locator in *.

Section on_a_locator.
Context (w : world) (this : loc) (services : gmap string value).
Hypothesis Hthis : is_locator w this services.

Lemma has_eq key :
  has this key w = (Return (bool_decide (is_Some (services !! key))), w).
Proof. unfold_methods. by rewrite Hthis. Qed.

Lemma get_eq key :
  get this key w =
    (match services !! key with
     | Some v => Return v
     | None => Throw (Error (not_found_message key))
     end, w).
Proof.
  unfold_methods. rewrite Hthis.
  destruct (services !! key) as [v|] eqn:Hk; simpl; [|done].
  by rewrite Hthis, Hk.
Qed.

Lemma register_eq key instance :
  register this key instance w =
    (Return (), registered w this services key instance).
Proof.
  unfold_methods. rewrite Hthis. unfold registered.
  destruct (bool_decide (is_Some (services !! key))); simpl;
    rewrite Hthis; by rewrite ?app_nil_r.
Qed.

Lemma registered_is_locator key instance :
  is_locator (registered w this services key instance) this
    (<[key := instance]> services).
Proof. unfold is_locator, registered. simpl. apply lookup_insert_eq. Qed.
End on_a_locator.

(** A receiver that is not a locator: every method throws and nothing
    changes. *)
Lemma not_locator_stuck w this :
  (∀ services, ¬ is_locator w this services) →
  this_services this w = (Throw TypeError, w).
Proof.
  intros Hn. unfold_methods.
  destruct (heap w !! this) as [[m|]|] eqn:E; try done.
  by destruct (Hn m).
Qed.

Lemma locator_or_not w this :
  (∃ services, is_locator w this services) ∨
  (∀ services, ¬ is_locator w this services).
Proof.
  unfold is_locator. destruct (heap w !! this) as [[m|]|]; eauto;
    right; intros ? ?; congruence.
Qed.

Lemma has_world w this key : (has this key w).2 = w.
Proof. unfold_methods. by destruct (heap w !! this) as [[m|]|]. Qed.

Lemma get_world w this key : (get this key w).2 = w.
Proof.
  unfold_methods. destruct (heap w !! this) as [[m|]|] eqn:E; try done.
  destruct (bool_decide (is_Some (m !! key))); simpl; try done.
  by rewrite E.
Qed.

Lemma register_world w this key instance :
  (register this key instance w).2 =
    match heap w !! this with
    | Some (ServiceLocator services) => registered w this services key instance
    | _ => w
    end.
Proof.
  destruct (heap w !! this) as [[m|]|] eqn:E.
  - by rewrite (register_eq w this m E).
  - unfold_methods. by rewrite E.
  - unfold_methods. by rewrite E.
Qed.

Lemma getInstance_eq w :
  getInstance w =
    match ServiceLocator_instance w with
    | Some l => (Return l, w)
    | None =>
        let l := fresh (dom (heap w)) in
        (Return l,
         {| ServiceLocator_instance := Some l;
            heap := <[l := ServiceLocator ∅]> (heap w);
            console := console w |})
    end.
Proof. unfold_methods. by destruct (ServiceLocator_instance w). Qed.

Lemma fresh_not_allocated w : heap w !! fresh (dom (heap w)) = None.
Proof. apply not_elem_of_dom, is_fresh. Qed.

(** The substring test. *)

Lemma prefix_app (s t : string) : String.prefix s (s +:+ t) = true.
Proof.
  induction s as [|a s IH]; simpl; [by destruct t|].
  destruct (Ascii.ascii_dec a a); [exact IH | done].
Qed.

Lemma includes_unfold (needle hay : string) :
  includes needle hay =
    String.prefix needle hay ||
    match hay with
    | EmptyString => false
    | String _ hay' => includes needle hay'
    end.
Proof. by destruct hay. Qed.

Lemma includes_app (before needle after : string) :
  includes needle (before +:+ needle +:+ after) = true.
Proof.
  induction before as [|a before IH].
  - rewrite includes_unfold. change (String.append EmptyString ?s) with s.
    by rewrite prefix_app.
  - rewrite includes_unfold. simpl. rewrite IH. apply orb_true_r.
Qed.

Lemma includes_split (needle hay : string) :
  includes needle hay = true →
  ∃ before after, hay = before +:+ needle +:+ after.
Proof.
  induction hay as [|a hay IH]; rewrite includes_unfold; intros H.
  - rewrite orb_false_r in H. destruct needle; [|done].
    by exists EmptyString, EmptyString.
  - apply orb_true_iff in H as [H|H].
    + exists EmptyString. simpl.
      revert H. generalize (String a hay). clear.
      induction needle as [|b needle IH]; intros s H.
      * by exists s.
      * destruct s as [|c s]; simpl in H; [done|].
        destruct (Ascii.ascii_dec b c) as [->|]; [|done].
        destruct (IH _ H) as [after ->]. by exists after.
    + destruct (IH H) as (before & after & ->).
      by exists (String a before), after.
Qed.

(** ** What a call preserves *)

Lemma exec_step c w : step c w (exec c w).
Proof.
  destruct c as [|this key instance|this key|this key|]; simpl.
  - rewrite getInstance_eq.
    destruct (ServiceLocator_instance w) as [l|] eqn:E; simpl.
    + by eapply step_getInstance_again.
    + by apply step_getInstance_first.
  - rewrite register_world.
    destruct (heap w !! this) as [[m|]|] eqn:E.
    + by apply step_register.
    + apply step_register_stuck. unfold is_locator. congruence.
    + apply step_register_stuck. unfold is_locator. congruence.
  - rewrite get_world. constructor.
  - rewrite has_world. constructor.
  - constructor.
Qed.

Lemma step_instance c w w' l :
  step c w w' →
  ServiceLocator_instance w = Some l → ServiceLocator_instance w' = Some l.
Proof. destruct 1; simpl; congruence. Qed.

(** A locator stays where it is and keeps every key it binds. *)
Lemma step_locator c w w' l services :
  step c w w' →
  is_locator w l services →
  ∃ services', is_locator w' l services' ∧
    ∀ key, is_Some (services !! key) → is_Some (services' !! key).
Proof.
  unfold is_locator.
  destruct 1 as [w _|w l0 _|w this m key instance Hm|w this key instance _
                |w this key|w this key|w]; simpl; intros Hl; eauto.
  - exists services. split; [|done].
    rewrite lookup_insert_ne; [done|].
    intros <-. by rewrite fresh_not_allocated in Hl.
  - destruct (decide (this = l)) as [->|Hne].
    + rewrite lookup_insert_eq. unfold is_locator in Hm.
      assert (m = services) as -> by congruence.
      eexists. split; [done|]. intros k Hk.
      apply lookup_insert_is_Some. destruct (decide (key = k)); auto.
    + rewrite lookup_insert_ne by done. eauto.
  - exists services. split; [|done].
    rewrite lookup_insert_ne; [done|].
    intros <-. by rewrite fresh_not_allocated in Hl.
Qed.

Lemma step_wf c w w' : step c w w' → wf w → wf w'.
Proof.
  intros Hstep Hwf.
  destruct (ServiceLocator_instance w) as [l0|] eqn:Hi.
  - intros l Hl. rewrite (step_instance _ _ _ _ Hstep Hi) in Hl.
    injection Hl as <-. destruct (Hwf l0 Hi) as [m Hm].
    destruct (step_locator _ _ _ _ _ Hstep Hm) as (m' & Hm' & _). eauto.
  - destruct Hstep; simpl in *; try done; try congruence.
    + intros l [= <-]. exists ∅. unfold is_locator. simpl.
      apply lookup_insert_eq.
    + intros l Hl. simpl in Hl. congruence.
    + intros l Hl. simpl in Hl. congruence.
Qed.

(** A call that does not register [key] binds it nowhere. *)
Lemma step_absent key c w w' :
  step c w w' →
  never_registered key [c] = true →
  absent key w → absent key w'.
Proof.
  unfold absent, is_locator.
  destruct 1 as [w _|w l0 _|w this m key' instance Hm|w this key' instance _
                |w this key'|w this key'|w]; simpl; intros Hc Ha l s Hl; eauto.
  - destruct (decide (fresh (dom (heap w)) = l)) as [<-|Hne].
    + rewrite lookup_insert_eq in Hl. injection Hl as <-. apply lookup_empty.
    + rewrite lookup_insert_ne in Hl by done. eauto.
  - rewrite andb_true_r in Hc. apply negb_true_iff, bool_decide_eq_false in Hc.
    destruct (decide (this = l)) as [->|Hne].
    + rewrite lookup_insert_eq in Hl. injection Hl as <-.
      rewrite lookup_insert_ne by done. eauto.
    + rewrite lookup_insert_ne in Hl by done. eauto.
  - destruct (decide (fresh (dom (heap w)) = l)) as [<-|Hne].
    + rewrite lookup_insert_eq in Hl. done.
    + rewrite lookup_insert_ne in Hl by done. eauto.
Qed.

(** ** Histories *)

Lemma run_app cs1 cs2 w : run (cs1 ++ cs2) w = run cs2 (run cs1 w).
Proof. revert w. induction cs1 as [|c cs1 IH]; intros w; simpl; [done|apply IH]. Qed.

Lemma run_instance cs w l :
  ServiceLocator_instance w = Some l →
  ServiceLocator_instance (run cs w) = Some l.
Proof.
  revert w. induction cs as [|c cs IH]; intros w Hi; simpl; [done|].
  apply IH. eapply step_instance; [apply exec_step|done].
Qed.

Lemma run_wf cs w : wf w → wf (run cs w).
Proof.
  revert w. induction cs as [|c cs IH]; intros w Hwf; simpl; [done|].
  apply IH. eapply step_wf; [apply exec_step|done].
Qed.

Lemma run_present cs w this key : present this key w → present this key (run cs w).
Proof.
  revert w. induction cs as [|c cs IH]; intros w Hp; simpl; [done|].
  apply IH. destruct Hp as (m & Hm & Hk).
  destruct (step_locator _ _ _ _ _ (exec_step c w) Hm) as (m' & Hm' & Hmono).
  exists m'. eauto.
Qed.

Lemma run_absent key cs w :
  never_registered key cs = true → absent key w → absent key (run cs w).
Proof.
  revert w. induction cs as [|c cs IH]; intros w Hn Ha; simpl; [done|].
  assert (never_registered key [c] = true ∧ never_registered key cs = true)
    as [Hc Hcs].
  { destruct c; simpl in *; try done.
    apply andb_true_iff in Hn as [-> ->]. done. }
  apply IH; [done|]. eapply step_absent; [apply exec_step|done|done].
Qed.

Lemma initial_wf : wf initial_world.
Proof. intros l Hl. done. Qed.

Lemma initial_absent key : absent key initial_world.
Proof. intros l m Hl. unfold is_locator in Hl. simpl in Hl. by rewrite lookup_empty in Hl. Qed.

(** In a well-formed world [getInstance] returns a locator. *)
Lemma getInstance_locator w :
  wf w →
  ∃ this w' services,
    getInstance w = (Return this, w') ∧
    is_locator w' this services ∧
    ServiceLocator_instance w' = Some this ∧
    wf w' ∧
    w' = exec GetInstance w.
Proof.
  intros Hwf. pose proof (step_wf _ _ _ (exec_step GetInstance w) Hwf) as Hwf'.
  simpl in *. rewrite getInstance_eq in *.
  destruct (ServiceLocator_instance w) as [l|] eqn:Hi; simpl in *.
  - destruct (Hwf l Hi) as [m Hm]. by exists l, w, m.
  - eexists _, _, ∅. split; [done|]. split; [|done].
    unfold is_locator. simpl. apply lookup_insert_eq.
Qed.

(** ** Shared facts about [register] *)

Lemma register_has_get w this services key instance :
  is_locator w this services →
  ∃ w', register this key instance w = (Return (), w') ∧
        has this key w' = (Return true, w') ∧
        get this key w' = (Return instance, w').
Proof.
  intros Hthis. exists (registered w this services key instance).
  pose proof (registered_is_locator w this services key instance) as Hreg.
  split; [by apply register_eq|]. split.
  - rewrite (has_eq _ _ _ Hreg), lookup_insert_eq. done.
  - rewrite (get_eq _ _ _ Hreg), lookup_insert_eq. done.
Qed.

Lemma has_true_present w this key :
  has this key w = (Return true, w) ↔ present this key w.
Proof.
  split.
  - intros H. destruct (locator_or_not w this) as [[m Hm]|Hn].
    + rewrite (has_eq _ _ _ Hm) in H. exists m. split; [done|].
      injection H as H. by apply bool_decide_eq_true in H.
    + unfold has, Map_has, bind in H. rewrite (not_locator_stuck _ _ Hn) in H.
      done.
  - intros (m & Hm & Hk). rewrite (has_eq _ _ _ Hm).
    by rewrite bool_decide_eq_true_2.
Qed.

(** * The claims *)

(** C1.  For every key [key] and value [instance], once
    [register(key, instance)] has been called on the registry,
    [has(key)] returns [true] and [get(key)] returns [instance] itself:
    the value stored, a reference when it is an object, and no copy. *)
Theorem register_then_has_and_get w this services key instance :
  is_locator w this services →
  ∃ w', register this key instance w = (Return (), w') ∧
        has this key w' = (Return true, w') ∧
        get this key w' = (Return instance, w').
Proof. apply register_has_get. Qed.

Lemma register_then_has_and_get_witness :
  is_locator fresh_registry 1%positive ∅ ∧
  ∃ w', register 1%positive "Logger" (VRef 7%positive) fresh_registry
          = (Return (), w') ∧
        has 1%positive "Logger" w' = (Return true, w') ∧
        get 1%positive "Logger" w' = (Return (VRef 7%positive), w').
Proof.
  split; [reflexivity|].
  apply (register_then_has_and_get fresh_registry 1%positive ∅). reflexivity.
Defined.

(** C2.  For every key that no call of the history has registered,
    [has(key)] on the registry returns [false] and [get(key)] throws the
    not-found error, whose message carries the key. *)
Theorem never_registered_has_false_get_throws cs key :
  never_registered key cs = true →
  ∃ this w,
    getInstance (run cs initial_world) = (Return this, w) ∧
    has this key w = (Return false, w) ∧
    get this key w = (Throw (Error (not_found_message key)), w) ∧
    includes key (not_found_message key) = true.
Proof.
  intros Hn.
  destruct (getInstance_locator (run cs initial_world)
              (run_wf cs _ initial_wf)) as (this & w & m & Hg & Hm & _ & _ & Hw).
  assert (absent key w) as Ha.
  { rewrite Hw. change (exec GetInstance (run cs initial_world))
      with (run [GetInstance] (run cs initial_world)).
    rewrite <- run_app. apply run_absent; [|apply initial_absent].
    clear -Hn. induction cs as [|c cs IH]; simpl in *; [done|].
    destruct c; simpl in *; auto.
    apply andb_true_iff in Hn as [-> Hn]. simpl. auto. }
  exists this, w. split; [done|].
  rewrite (has_eq _ _ _ Hm), (get_eq _ _ _ Hm), (Ha this m Hm).
  repeat split. apply includes_app.
Qed.

Lemma never_registered_has_false_get_throws_witness :
  never_registered "Missing"
    [GetInstance; Register 1%positive "Logger" (VRef 7%positive);
     Get 1%positive "Logger"] = true ∧
  ∃ this w,
    getInstance (run [GetInstance; Register 1%positive "Logger" (VRef 7%positive);
                      Get 1%positive "Logger"] initial_world) = (Return this, w) ∧
    has this "Missing" w = (Return false, w) ∧
    get this "Missing" w = (Throw (Error (not_found_message "Missing")), w) ∧
    includes "Missing" (not_found_message "Missing") = true.
Proof.
  split; [reflexivity|].
  apply (never_registered_has_false_get_throws
           [GetInstance; Register 1%positive "Logger" (VRef 7%positive);
            Get 1%positive "Logger"] "Missing").
  reflexivity.
Defined.

(** C3.  Last write wins: after [register(key, v1)] and then
    [register(key, v2)], [get(key)] returns [v2], and it does not return
    [v1] unless the two are the same value; the second [register] writes
    one warning to the console and returns normally. *)
Theorem register_twice_last_write_wins w this services key v1 v2 :
  is_locator w this services →
  ∃ w1 w2,
    register this key v1 w = (Return (), w1) ∧
    register this key v2 w1 = (Return (), w2) ∧
    console w2 = console w1 ++ [overwrite_warning key] ∧
    get this key w2 = (Return v2, w2) ∧
    (v1 ≠ v2 → get this key w2 ≠ (Return v1, w2)).
Proof.
  intros Hthis.
  pose proof (registered_is_locator w this services key v1) as H1.
  set (w1 := registered w this services key v1) in *.
  pose proof (registered_is_locator w1 this (<[key:=v1]> services) key v2) as H2.
  set (w2 := registered w1 this (<[key:=v1]> services) key v2) in *.
  exists w1, w2.
  assert (get this key w2 = (Return v2, w2)) as Hget.
  { rewrite (get_eq _ _ _ H2), lookup_insert_eq. done. }
  split; [by apply register_eq|]. split; [by apply register_eq|].
  split; [|split; [done|]].
  - unfold w2, registered. simpl. rewrite lookup_insert_eq.
    by rewrite (bool_decide_eq_true_2 (is_Some (Some v1))).
  - intros Hne. rewrite Hget. congruence.
Qed.

Lemma register_twice_last_write_wins_witness :
  is_locator fresh_registry 1%positive ∅ ∧
  ∃ w1 w2,
    register 1%positive "Logger" (VRef 7%positive) fresh_registry
      = (Return (), w1) ∧
    register 1%positive "Logger" (VRef 8%positive) w1 = (Return (), w2) ∧
    console w2 = console w1 ++ [overwrite_warning "Logger"] ∧
    get 1%positive "Logger" w2 = (Return (VRef 8%positive), w2) ∧
    (VRef 7%positive ≠ VRef 8%positive →
     get 1%positive "Logger" w2 ≠ (Return (VRef 7%positive), w2)).
Proof.
  split; [reflexivity|].
  apply (register_twice_last_write_wins fresh_registry 1%positive ∅). reflexivity.
Defined.

(** C4.  When [get(key)] fails because the registry has no entry for
    [key], the error it throws has a message that contains [key]; so does
    [get("Missing")] on a registry that has no entry for "Missing". *)
Theorem get_absent_message_includes_key w this services key :
  is_locator w this services →
  services !! key = None →
  ∃ message,
    get this key w = (Throw (Error message), w) ∧
    includes key message = true.
Proof.
  intros Hthis Hk. exists (not_found_message key).
  rewrite (get_eq _ _ _ Hthis), Hk. split; [done|]. apply includes_app.
Qed.

Lemma get_absent_message_includes_key_witness :
  is_locator logger_registry 1%positive {["Logger" := VRef 7%positive]} ∧
  ({["Logger" := VRef 7%positive]} : gmap string value) !! "Missing" = None ∧
  ∃ message,
    get 1%positive "Missing" logger_registry = (Throw (Error message), logger_registry) ∧
    includes "Missing" message = true.
Proof.
  split; [reflexivity|]. split; [reflexivity|].
  apply (get_absent_message_includes_key logger_registry 1%positive
           {["Logger" := VRef 7%positive]} "Missing"); reflexivity.
Defined.

(** C5.  [getInstance()] never fails and always yields the one registry:
    whatever calls came before the first [getInstance()] and whatever
    calls come between it and a later one, both return the same
    reference and the later call changes nothing; a value registered
    through the first reference is read back through the second. *)
Theorem getInstance_returns_the_singleton (before between : list call)
    (key : string) (instance : value) :
  ∃ this w1,
    getInstance (run before initial_world) = (Return this, w1) ∧
    getInstance (run between w1) = (Return this, run between w1) ∧
    ∃ w2 that,
      register this key instance w1 = (Return (), w2) ∧
      getInstance w2 = (Return that, w2) ∧
      that = this ∧
      get that key w2 = (Return instance, w2).
Proof.
  destruct (getInstance_locator (run before initial_world)
              (run_wf before _ initial_wf))
    as (this & w1 & m & Hg & Hm & Hi & _ & _).
  exists this, w1. split; [done|]. split.
  - rewrite getInstance_eq. by rewrite (run_instance between w1 this Hi).
  - pose proof (registered_is_locator w1 this m key instance) as Hreg.
    exists (registered w1 this m key instance), this.
    split; [by apply register_eq|]. split.
    + rewrite getInstance_eq. simpl. by rewrite Hi.
    + split; [done|]. rewrite (get_eq _ _ _ Hreg), lookup_insert_eq. done.
Qed.

(** C6.  Keys are never removed: when [has(key)] is true in some state
    of the registry, it is still true after any sequence of calls of
    [getInstance], [register], [get] and [has], on any receiver and
    with any arguments. *)
Theorem has_stays_true cs w this key :
  has this key w = (Return true, w) →
  has this key (run cs w) = (Return true, run cs w).
Proof.
  intros H. apply has_true_present, run_present. by apply has_true_present.
Qed.

Lemma has_stays_true_witness :
  has 1%positive "Logger" logger_registry = (Return true, logger_registry) ∧
  has 1%positive "Logger"
    (run [Register 1%positive "Logger" VUndefined; Get 1%positive "Missing";
          GetInstance; NewForeign; Register 2%positive "Logger" VNull;
          Register 1%positive "ApiService" (VRef 2%positive);
          Has 1%positive "Logger"] logger_registry)
  = (Return true,
     run [Register 1%positive "Logger" VUndefined; Get 1%positive "Missing";
          GetInstance; NewForeign; Register 2%positive "Logger" VNull;
          Register 1%positive "ApiService" (VRef 2%positive);
          Has 1%positive "Logger"] logger_registry).
Proof.
  split; [reflexivity|].
  apply (has_stays_true
           [Register 1%positive "Logger" VUndefined; Get 1%positive "Missing";
            GetInstance; NewForeign; Register 2%positive "Logger" VNull;
            Register 1%positive "ApiService" (VRef 2%positive);
            Has 1%positive "Logger"] logger_registry 1%positive "Logger").
  reflexivity.
Defined.

(** C7.  [has] and [get] are observers: whether they return or throw,
    the world after the call is the world before it, heap and console
    included; and [has(key)] called [n] times in a row gives [n] times
    the result of the first call. *)
Theorem has_and_get_change_nothing w this key n :
  (has this key w).2 = w ∧
  (get this key w).2 = w ∧
  has_repeatedly n this key w = (replicate n (has this key w).1, w).
Proof.
  split; [apply has_world|]. split; [apply get_world|].
  induction n as [|n IH]; simpl; [done|].
  pose proof (has_world w this key) as Hw.
  destruct (has this key w) as [r w'] eqn:E. simpl in *. subst w'.
  by rewrite IH.
Qed.

(** C8.  On the registry, [register] returns normally for every key and
    value, with or without the overwrite warning, [has] returns a
    boolean for every key, and [getInstance] returns a reference; [get]
    throws exactly when the key has no entry, and then it throws the
    not-found error and changes nothing. *)
Theorem only_get_on_absent_key_fails w this services key instance :
  is_locator w this services →
  (∃ w', register this key instance w = (Return (), w')) ∧
  (∃ b, has this key w = (Return b, w)) ∧
  (∃ l w', getInstance w = (Return l, w')) ∧
  (∀ e w', get this key w = (Throw e, w') ↔
           services !! key = None ∧ e = Error (not_found_message key) ∧ w' = w).
Proof.
  intros Hthis. split; [|split; [|split]].
  - eexists. by apply register_eq.
  - eexists. by apply has_eq.
  - rewrite getInstance_eq. destruct (ServiceLocator_instance w); eauto.
  - intros e w'. rewrite (get_eq _ _ _ Hthis).
    destruct (services !! key) as [v|]; split.
    + intros [=].
    + intros ([=] & _).
    + intros [= <- <-]. done.
    + intros (_ & -> & ->). done.
Qed.

Lemma only_get_on_absent_key_fails_witness :
  is_locator logger_registry 1%positive {["Logger" := VRef 7%positive]} ∧
  (∃ w', register 1%positive "Logger" VUndefined logger_registry = (Return (), w')) ∧
  (∃ b, has 1%positive "Logger" logger_registry = (Return b, logger_registry)) ∧
  (∃ l w', getInstance logger_registry = (Return l, w')) ∧
  (∀ e w', get 1%positive "Logger" logger_registry = (Throw e, w') ↔
           ({["Logger" := VRef 7%positive]} : gmap string value) !! "Logger" = None ∧
           e = Error (not_found_message "Logger") ∧ w' = logger_registry).
Proof.
  split; [reflexivity|].
  apply (only_get_on_absent_key_fails logger_registry 1%positive
           {["Logger" := VRef 7%positive]} "Logger" VUndefined).
  reflexivity.
Defined.

(** C9.  Registering under one key leaves every other key alone: for
    [k1 ≠ k2], after [register(k2, v2)] the calls [has(k1)] and [get(k1)]
    give what they gave before, the same boolean and the same stored
    value (or the same not-found error). *)
Theorem register_leaves_other_keys w this services k1 k2 v2 :
  is_locator w this services →
  k1 ≠ k2 →
  ∃ w', register this k2 v2 w = (Return (), w') ∧
        (has this k1 w').1 = (has this k1 w).1 ∧
        (get this k1 w').1 = (get this k1 w).1.
Proof.
  intros Hthis Hne. exists (registered w this services k2 v2).
  pose proof (registered_is_locator w this services k2 v2) as Hreg.
  split; [by apply register_eq|].
  rewrite (has_eq _ _ _ Hreg), (get_eq _ _ _ Hreg).
  rewrite (has_eq _ _ _ Hthis), (get_eq _ _ _ Hthis).
  by rewrite lookup_insert_ne.
Qed.

Lemma register_leaves_other_keys_witness :
  is_locator logger_registry 1%positive {["Logger" := VRef 7%positive]} ∧
  "Logger" ≠ "ApiService" ∧
  ∃ w', register 1%positive "ApiService" (VRef 9%positive) logger_registry
          = (Return (), w') ∧
        (has 1%positive "Logger" w').1 = (has 1%positive "Logger" logger_registry).1 ∧
        (get 1%positive "Logger" w').1 = (get 1%positive "Logger" logger_registry).1.
Proof.
  split; [reflexivity|]. split; [discriminate|].
  apply (register_leaves_other_keys logger_registry 1%positive
           {["Logger" := VRef 7%positive]} "Logger" "ApiService" (VRef 9%positive));
    [reflexivity|discriminate].
Defined.

(** C10.  The empty string is a key like any other: for every value
    [instance], [register] with the empty key returns normally, with no
    case of its own in the code, after which [has] of the empty key
    returns [true] and [get] of the empty key returns [instance]. *)
Theorem empty_key_is_ordinary w this services instance :
  is_locator w this services →
  ∃ w', register this EmptyString instance w = (Return (), w') ∧
        has this EmptyString w' = (Return true, w') ∧
        get this EmptyString w' = (Return instance, w').
Proof. apply register_has_get. Qed.

Lemma empty_key_is_ordinary_witness :
  is_locator logger_registry 1%positive {["Logger" := VRef 7%positive]} ∧
  ∃ w', register 1%positive EmptyString (VString EmptyString) logger_registry = (Return (), w') ∧
        has 1%positive EmptyString w' = (Return true, w') ∧
        get 1%positive EmptyString w' = (Return (VString EmptyString), w').
Proof.
  split; [reflexivity|].
  apply (empty_key_is_ordinary logger_registry 1%positive
           {["Logger" := VRef 7%positive]} (VString EmptyString)).
  reflexivity.
Defined.

(** * Further properties of the class *)

(** ** Helper facts *)

Lemma register_stuck w this key instance :
  (∀ services, ¬ is_locator w this services) →
  register this key instance w = (Throw TypeError, w).
Proof.
  intros Hn. unfold register, Map_has, bind.
  by rewrite (not_locator_stuck _ _ Hn).
Qed.

(** What one call does to the binding of [key] in the locator [this]. *)
Lemma exec_lookup c w this services key :
  is_locator w this services →
  ∃ services', is_locator (exec c w) this services' ∧
    services' !! key =
      match c with
      | Register this' key' instance =>
          if bool_decide (this' = this ∧ key' = key)
          then Some instance else services !! key
      | _ => services !! key
      end.
Proof.
  intros Hthis.
  assert (fresh (dom (heap w)) ≠ this) as Hfresh.
  { intros <-. unfold is_locator in Hthis.
    by rewrite fresh_not_allocated in Hthis. }
  destruct c as [|this' key' instance|this' key'|this' key'|]; simpl.
  - rewrite getInstance_eq. destruct (ServiceLocator_instance w); simpl; [eauto|].
    exists services. split; [|done]. unfold is_locator. simpl.
    by rewrite lookup_insert_ne.
  - rewrite register_world. destruct (decide (this' = this)) as [->|Hne].
    + unfold is_locator in Hthis. rewrite Hthis.
      exists (<[key' := instance]> services).
      split; [apply registered_is_locator|].
      destruct (decide (key' = key)) as [->|Hk].
      * rewrite bool_decide_eq_true_2 by done. apply lookup_insert_eq.
      * rewrite bool_decide_eq_false_2 by (intros [_ ?]; done).
        by apply lookup_insert_ne.
    + rewrite bool_decide_eq_false_2 by (intros [? _]; done).
      exists services. split; [|done].
      destruct (heap w !! this') as [[m|]|]; try done.
      unfold is_locator, registered. simpl. by rewrite lookup_insert_ne.
  - rewrite get_world. eauto.
  - rewrite has_world. eauto.
  - exists services. split; [|done]. unfold is_locator. simpl.
    by rewrite lookup_insert_ne.
Qed.

Lemma run_lookup cs w this services key :
  is_locator w this services →
  ∃ services', is_locator (run cs w) this services' ∧
    services' !! key =
      match last_registered this key cs with
      | Some v => Some v
      | None => services !! key
      end.
Proof.
  revert w services. induction cs as [|c cs IH]; intros w services Hthis; simpl.
  - eauto.
  - destruct (exec_lookup c w this services key Hthis) as (m1 & H1 & Hk1).
    destruct (IH _ _ H1) as (m' & Hm' & Hk'). exists m'. split; [done|].
    rewrite Hk'. destruct (last_registered this key cs); [done|].
    rewrite Hk1. destruct c; try done. by case_bool_decide.
Qed.

Lemma step_singleton c w w' : step c w w' → singleton w → singleton w'.
Proof.
  unfold singleton, is_locator.
  destruct 1 as [w Hi|w l0 _|w this m key instance Hm|w this key instance _
                |w this key|w this key|w]; simpl; intros Hs l s Hl; eauto.
  - destruct (decide (fresh (dom (heap w)) = l)) as [<-|Hne]; [done|].
    rewrite lookup_insert_ne in Hl by done.
    rewrite (Hs _ _ Hl) in Hi. done.
  - destruct (decide (this = l)) as [<-|Hne]; [eauto|].
    rewrite lookup_insert_ne in Hl by done. eauto.
  - destruct (decide (fresh (dom (heap w)) = l)) as [<-|Hne].
    + by rewrite lookup_insert_eq in Hl.
    + rewrite lookup_insert_ne in Hl by done. eauto.
Qed.

Lemma run_singleton cs w : singleton w → singleton (run cs w).
Proof.
  revert w. induction cs as [|c cs IH]; intros w Hs; simpl; [done|].
  apply IH. eapply step_singleton; [apply exec_step|done].
Qed.

Lemma initial_singleton : singleton initial_world.
Proof. intros l m Hl. unfold is_locator in Hl. simpl in Hl. by rewrite lookup_empty in Hl. Qed.

(** ** The registry as a map over whole histories *)

(** X1.  Whatever the program has called so far, the heap holds at most
    one [ServiceLocator]: two references to a locator are the same
    address, and it is the address the static field holds. *)
Theorem at_most_one_locator cs l1 l2 services1 services2 :
  is_locator (run cs initial_world) l1 services1 →
  is_locator (run cs initial_world) l2 services2 →
  l1 = l2 ∧ services1 = services2 ∧
  ServiceLocator_instance (run cs initial_world) = Some l1.
Proof.
  intros H1 H2.
  pose proof (run_singleton cs _ initial_singleton) as Hs.
  pose proof (Hs _ _ H1) as E1. pose proof (Hs _ _ H2) as E2.
  assert (l1 = l2) as <- by congruence.
  unfold is_locator in *. split; [done|]. split; [congruence|done].
Qed.

Lemma at_most_one_locator_witness :
  is_locator (run [NewForeign; GetInstance; Register 2%positive "Logger" VNull;
                   GetInstance] initial_world)
    2%positive {["Logger" := VNull]} ∧
  is_locator (run [NewForeign; GetInstance; Register 2%positive "Logger" VNull;
                   GetInstance] initial_world)
    2%positive {["Logger" := VNull]} ∧
  2%positive = 2%positive ∧
  ({["Logger" := VNull]} : gmap string value) = {["Logger" := VNull]} ∧
  ServiceLocator_instance
    (run [NewForeign; GetInstance; Register 2%positive "Logger" VNull;
          GetInstance] initial_world) = Some 2%positive.
Proof.
  split; [reflexivity|]. split; [reflexivity|].
  apply (at_most_one_locator
           [NewForeign; GetInstance; Register 2%positive "Logger" VNull;
            GetInstance]); reflexivity.
Defined.

(** X2.  After any history of calls, [get(key)] on a locator returns the
    value of the last [register(key, _)] the history made on it; when
    the history made none, it gives what it gave before the history,
    the stored value or the not-found error.  Calls with other keys or
    other receivers, and [getInstance], [get] and [has], do not count. *)
Theorem get_returns_last_registered cs w this services key :
  is_locator w this services →
  get this key (run cs w) =
    (match last_registered this key cs with
     | Some v => Return v
     | None => (get this key w).1
     end, run cs w).
Proof.
  intros Hthis.
  destruct (run_lookup cs w this services key Hthis) as (m' & Hm' & Hk).
  rewrite (get_eq _ _ _ Hm'), Hk, (get_eq _ _ _ Hthis).
  by destruct (last_registered this key cs).
Qed.

Lemma get_returns_last_registered_witness :
  is_locator logger_registry 1%positive {["Logger" := VRef 7%positive]} ∧
  get 1%positive "Logger"
    (run [Register 1%positive "Logger" (VRef 8%positive);
          Register 1%positive "ApiService" (VRef 9%positive);
          Register 3%positive "Logger" VNull;
          Get 1%positive "Missing"; GetInstance] logger_registry) =
    (match last_registered 1%positive "Logger"
             [Register 1%positive "Logger" (VRef 8%positive);
              Register 1%positive "ApiService" (VRef 9%positive);
              Register 3%positive "Logger" VNull;
              Get 1%positive "Missing"; GetInstance] with
     | Some v => Return v
     | None => (get 1%positive "Logger" logger_registry).1
     end,
     run [Register 1%positive "Logger" (VRef 8%positive);
          Register 1%positive "ApiService" (VRef 9%positive);
          Register 3%positive "Logger" VNull;
          Get 1%positive "Missing"; GetInstance] logger_registry).
Proof.
  split; [reflexivity|].
  apply (get_returns_last_registered
           [Register 1%positive "Logger" (VRef 8%positive);
            Register 1%positive "ApiService" (VRef 9%positive);
            Register 3%positive "Logger" VNull;
            Get 1%positive "Missing"; GetInstance]
           logger_registry 1%positive {["Logger" := VRef 7%positive]} "Logger").
  reflexivity.
Defined.

(** ** Accounting for registrations and warnings *)

Lemma exec_account c w :
  wf w → singleton w →
  bound (exec c w) + length (console (exec c w)) =
  bound w + length (console w) + registrations [c] w.
Proof.
  intros Hwf Hs. destruct c as [|this key instance|this key|this key|]; simpl.
  - rewrite getInstance_eq. unfold bound.
    destruct (ServiceLocator_instance w) as [l|] eqn:Hi; simpl.
    + rewrite Hi. lia.
    + rewrite lookup_insert_eq, map_size_empty. lia.
  - destruct (locator_or_not w this) as [[m Hm]|Hn].
    + rewrite (register_eq _ _ _ Hm). simpl.
      pose proof (Hs _ _ Hm) as Hi. unfold bound, registered. simpl.
      rewrite Hi, lookup_insert_eq. unfold is_locator in Hm. rewrite Hm.
      rewrite length_app. destruct (m !! key) as [v|] eqn:Hk.
      * rewrite map_size_insert_Some by (rewrite Hk; eauto).
        rewrite bool_decide_eq_true_2 by eauto. simpl. lia.
      * rewrite map_size_insert_None by done.
        rewrite bool_decide_eq_false_2 by (by intros [? ?]). simpl. lia.
    + rewrite (register_stuck _ _ _ _ Hn). simpl. lia.
  - rewrite get_world. lia.
  - rewrite has_world. lia.
  - unfold bound. simpl.
    destruct (ServiceLocator_instance w) as [l|] eqn:Hi; [|lia].
    destruct (Hwf l Hi) as [m Hm]. unfold is_locator in Hm.
    rewrite lookup_insert_ne; [lia|].
    intros <-. by rewrite fresh_not_allocated in Hm.
Qed.

Lemma run_account cs w :
  wf w → singleton w →
  bound (run cs w) + length (console (run cs w)) =
  bound w + length (console w) + registrations cs w.
Proof.
  revert w. induction cs as [|c cs IH]; intros w Hwf Hs; simpl; [lia|].
  rewrite IH.
  - pose proof (exec_account c w Hwf Hs) as H. simpl in H. lia.
  - eapply step_wf; [apply exec_step|done].
  - eapply step_singleton; [apply exec_step|done].
Qed.

Lemma exec_console c w :
  console (exec c w) = console w ∨
  ∃ this services key instance,
    c = Register this key instance ∧ is_locator w this services ∧
    is_Some (services !! key) ∧
    console (exec c w) = console w ++ [overwrite_warning key].
Proof.
  destruct (exec_step c w) as [w _|w l0 _|w this m key instance Hm
                              |w this key instance _
                              |w this key|w this key|w]; simpl; auto.
  destruct (m !! key) as [v|] eqn:Hk.
  - right. exists this, m, key, instance. rewrite Hk.
    rewrite bool_decide_eq_true_2 by eauto. eauto.
  - left. rewrite bool_decide_eq_false_2 by (by intros [? ?]).
    apply app_nil_r.
Qed.

Lemma run_console_prefix cs w : console w `prefix_of` console (run cs w).
Proof.
  revert w. induction cs as [|c cs IH]; intros w; simpl; [done|].
  etrans; [|apply IH].
  destruct (exec_console c w) as [->|(_ & _ & k & _ & _ & _ & _ & ->)]; [done|].
  by eexists.
Qed.

Lemma times_registered_app key cs1 cs2 :
  times_registered key (cs1 ++ cs2) =
  times_registered key cs1 + times_registered key cs2.
Proof.
  induction cs1 as [|c cs1 IH]; simpl; [done|].
  destruct c; simpl; rewrite IH; lia.
Qed.

Lemma exec_bound_keys c w l services key :
  is_locator (exec c w) l services →
  is_Some (services !! key) →
  (∃ services0, is_locator w l services0 ∧ is_Some (services0 !! key)) ∨
  (∃ instance, c = Register l key instance).
Proof.
  unfold is_locator.
  destruct (exec_step c w) as [w _|w l0 _|w this m key' instance Hm
                              |w this key' instance _
                              |w this key'|w this key'|w]; simpl;
    intros Hl Hk; eauto.
  - destruct (decide (fresh (dom (heap w)) = l)) as [<-|Hne].
    + rewrite lookup_insert_eq in Hl. injection Hl as <-.
      rewrite lookup_empty in Hk. by destruct Hk.
    + rewrite lookup_insert_ne in Hl by done. eauto.
  - destruct (decide (this = l)) as [<-|Hne].
    + rewrite lookup_insert_eq in Hl. injection Hl as <-.
      destruct (decide (key' = key)) as [<-|Hkk]; [eauto|].
      rewrite lookup_insert_ne in Hk by done. eauto.
    + rewrite lookup_insert_ne in Hl by done. eauto.
  - destruct (decide (fresh (dom (heap w)) = l)) as [<-|Hne].
    + by rewrite lookup_insert_eq in Hl.
    + rewrite lookup_insert_ne in Hl by done. eauto.
Qed.

Lemma exec_accounted pre c w :
  accounted pre w → accounted (pre ++ [c]) (exec c w).
Proof.
  intros [Hkeys Hlines]. split.
  - intros l m key Hl Hk. rewrite times_registered_app.
    destruct (exec_bound_keys c w l m key Hl Hk) as [(m0 & H0 & Hk0)|[v ->]].
    + pose proof (Hkeys _ _ _ H0 Hk0). lia.
    + simpl. rewrite bool_decide_eq_true_2 by done. lia.
  - intros line Hin.
    destruct (exec_console c w)
      as [E|(this & m & key & v & -> & Hm & Hk & E)]; rewrite E in Hin.
    + destruct (Hlines line Hin) as (key & -> & Hn). exists key.
      rewrite times_registered_app. split; [done|lia].
    + apply elem_of_app in Hin as [Hin|Hin].
      * destruct (Hlines line Hin) as (key0 & -> & Hn). exists key0.
        rewrite times_registered_app. split; [done|lia].
      * apply list_elem_of_singleton in Hin as ->. exists key.
        rewrite times_registered_app. split; [done|].
        pose proof (Hkeys _ _ _ Hm Hk). simpl.
        rewrite bool_decide_eq_true_2 by done. lia.
Qed.

Lemma run_accounted cs pre w :
  accounted pre w → accounted (pre ++ cs) (run cs w).
Proof.
  revert pre w. induction cs as [|c cs IH]; intros pre w Ha; simpl.
  - by rewrite app_nil_r.
  - replace (pre ++ c :: cs) with ((pre ++ [c]) ++ cs)
      by (by rewrite <- app_assoc).
    apply IH. by apply exec_accounted.
Qed.

Lemma initial_accounted : accounted [] initial_world.
Proof.
  split.
  - intros l m key Hl. unfold is_locator in Hl. simpl in Hl.
    by rewrite lookup_empty in Hl.
  - intros line Hin. simpl in Hin. by apply elem_of_nil in Hin.
Qed.

Lemma exec_entries pre c w :
  entries_registered pre w → entries_registered (pre ++ [c]) (exec c w).
Proof.
  unfold entries_registered, is_locator. intros He l m key v.
  destruct (exec_step c w) as [w _|w l0 _|w this m0 key' instance Hm
                              |w this key' instance _
                              |w this key'|w this key'|w]; simpl;
    intros Hl Hk; rewrite elem_of_app; eauto.
  - destruct (decide (fresh (dom (heap w)) = l)) as [<-|Hne].
    + rewrite lookup_insert_eq in Hl. injection Hl as <-.
      by rewrite lookup_empty in Hk.
    + rewrite lookup_insert_ne in Hl by done. eauto.
  - destruct (decide (this = l)) as [<-|Hne].
    + rewrite lookup_insert_eq in Hl. injection Hl as <-.
      destruct (decide (key' = key)) as [<-|Hkk].
      * rewrite lookup_insert_eq in Hk. injection Hk as <-.
        right. apply list_elem_of_singleton. done.
      * rewrite lookup_insert_ne in Hk by done. eauto.
    + rewrite lookup_insert_ne in Hl by done. eauto.
  - destruct (decide (fresh (dom (heap w)) = l)) as [<-|Hne].
    + by rewrite lookup_insert_eq in Hl.
    + rewrite lookup_insert_ne in Hl by done. eauto.
Qed.

Lemma run_entries cs pre w :
  entries_registered pre w → entries_registered (pre ++ cs) (run cs w).
Proof.
  revert pre w. induction cs as [|c cs IH]; intros pre w He; simpl.
  - by rewrite app_nil_r.
  - replace (pre ++ c :: cs) with ((pre ++ [c]) ++ cs)
      by (by rewrite <- app_assoc).
    apply IH. by apply exec_entries.
Qed.

Lemma initial_entries : entries_registered [] initial_world.
Proof.
  intros l m key v Hl. unfold is_locator in Hl. simpl in Hl.
  by rewrite lookup_empty in Hl.
Qed.

Lemma string_length_app (s t : string) :
  String.length (s +:+ t) = String.length s + String.length t.
Proof. induction s as [|a s IH]; simpl; [done|by rewrite IH]. Qed.

Lemma string_app_inj_r (s1 s2 t : string) : s1 +:+ t = s2 +:+ t → s1 = s2.
Proof.
  revert s2. induction s1 as [|a s1 IH]; intros [|b s2] H.
  - done.
  - apply (f_equal String.length) in H.
    rewrite !string_length_app in H. simpl in H. lia.
  - apply (f_equal String.length) in H.
    rewrite !string_length_app in H. simpl in H. lia.
  - injection H as -> H. f_equal. by apply IH.
Qed.

(** X3.  Every [register] call that returns normally is accounted for
    exactly once: after any history from the start of the process, the
    number of keys the registry binds plus the number of lines on the
    console is the number of [register] calls that returned.  A call
    adds a key or writes a warning, never both and never neither. *)
Theorem registrations_are_keys_plus_warnings cs :
  bound (run cs initial_world) + length (console (run cs initial_world)) =
  registrations cs initial_world.
Proof.
  rewrite (run_account cs initial_world initial_wf initial_singleton).
  reflexivity.
Qed.

(** X4.  The console is only appended to: what it held before any
    sequence of calls is still there afterwards, at the front and in the
    same order. *)
Theorem console_is_append_only cs w :
  console w `prefix_of` console (run cs w).
Proof. apply run_console_prefix. Qed.

(** X5.  No warning without an overwrite: every line on the console is
    the overwrite warning of some key, and the history called [register]
    with that key at least twice. *)
Theorem console_lines_are_overwrites cs line :
  line ∈ console (run cs initial_world) →
  ∃ key, line = overwrite_warning key ∧ 2 ≤ times_registered key cs.
Proof.
  intros Hin.
  destruct (run_accounted cs [] initial_world initial_accounted) as [_ Hlines].
  exact (Hlines line Hin).
Qed.

Lemma console_lines_are_overwrites_witness :
  overwrite_warning "Logger" ∈
    console (run [GetInstance; Register 1%positive "Logger" VNull;
                  Register 1%positive "Logger" VUndefined] initial_world) ∧
  ∃ key, overwrite_warning "Logger" = overwrite_warning key ∧
    2 ≤ times_registered key
          [GetInstance; Register 1%positive "Logger" VNull;
           Register 1%positive "Logger" VUndefined].
Proof.
  split; [apply list_elem_of_here|].
  apply (console_lines_are_overwrites
           [GetInstance; Register 1%positive "Logger" VNull;
            Register 1%positive "Logger" VUndefined]).
  apply list_elem_of_here.
Defined.

(** X6.  The registry holds nothing that was not registered: when a
    locator binds [key] to [v] after some history from the start of the
    process, the history contains the call [register(key, v)] on that
    locator. *)
Theorem entries_come_from_register cs l services key v :
  is_locator (run cs initial_world) l services →
  services !! key = Some v →
  Register l key v ∈ cs.
Proof.
  intros Hl Hk.
  exact (run_entries cs [] initial_world initial_entries l services key v Hl Hk).
Qed.

Lemma entries_come_from_register_witness :
  is_locator (run [GetInstance; Register 1%positive "Logger" VNull;
                   Register 1%positive "Logger" (VRef 7%positive)] initial_world)
    1%positive {["Logger" := VRef 7%positive]} ∧
  ({["Logger" := VRef 7%positive]} : gmap string value) !! "Logger"
    = Some (VRef 7%positive) ∧
  Register 1%positive "Logger" (VRef 7%positive) ∈
    [GetInstance; Register 1%positive "Logger" VNull;
     Register 1%positive "Logger" (VRef 7%positive)].
Proof.
  split; [reflexivity|]. split; [reflexivity|].
  apply (entries_come_from_register
           [GetInstance; Register 1%positive "Logger" VNull;
            Register 1%positive "Logger" (VRef 7%positive)]
           1%positive {["Logger" := VRef 7%positive]} "Logger" (VRef 7%positive));
    reflexivity.
Defined.

(** ** How the methods compose *)

(** X7.  [has] tells what [get] will do, on every receiver and key:
    [has(key)] returns [true] exactly when [get(key)] returns a value,
    and returns [false] exactly when [get(key)] throws the not-found
    error.  A key bound to [undefined] counts as bound. *)
Theorem has_tells_what_get_does w this key :
  (has this key w = (Return true, w) ↔ ∃ v, get this key w = (Return v, w)) ∧
  (has this key w = (Return false, w) ↔
   get this key w = (Throw (Error (not_found_message key)), w)).
Proof.
  destruct (locator_or_not w this) as [[m Hm]|Hn].
  - rewrite (has_eq _ _ _ Hm), (get_eq _ _ _ Hm).
    destruct (m !! key) as [v|]; simpl; split; split; try done; eauto.
    + intros [v [=]].
  - assert (has this key w = (Throw TypeError, w)) as ->.
    { unfold has, Map_has, bind. by rewrite (not_locator_stuck _ _ Hn). }
    assert (get this key w = (Throw TypeError, w)) as ->.
    { unfold get, Map_has, bind. by rewrite (not_locator_stuck _ _ Hn). }
    split; split; try done. intros [v [=]].
Qed.

(** X8.  [register] warns exactly when it overwrites: when [has(key)]
    was true before the call, the call appends the overwrite warning of
    [key] to the console, and when [has(key)] was false, the call leaves
    the console as it was. *)
Theorem register_warns_iff_has w this services key instance :
  is_locator w this services →
  ∃ w', register this key instance w = (Return (), w') ∧
    (has this key w = (Return true, w) →
     console w' = console w ++ [overwrite_warning key]) ∧
    (has this key w = (Return false, w) → console w' = console w).
Proof.
  intros Hthis. exists (registered w this services key instance).
  split; [by apply register_eq|].
  rewrite (has_eq _ _ _ Hthis). unfold registered. simpl.
  destruct (bool_decide (is_Some (services !! key))); split; intros [=];
    by rewrite ?app_nil_r.
Qed.

Lemma register_warns_iff_has_witness :
  is_locator logger_registry 1%positive {["Logger" := VRef 7%positive]} ∧
  ∃ w', register 1%positive "ApiService" VNull logger_registry = (Return (), w') ∧
    (has 1%positive "ApiService" logger_registry = (Return true, logger_registry) →
     console w' = console logger_registry ++ [overwrite_warning "ApiService"]) ∧
    (has 1%positive "ApiService" logger_registry = (Return false, logger_registry) →
     console w' = console logger_registry).
Proof.
  split; [reflexivity|].
  apply (register_warns_iff_has logger_registry 1%positive
           {["Logger" := VRef 7%positive]} "ApiService" VNull).
  reflexivity.
Defined.

(** X9.  Registering again the value a key already has changes no
    object and not the static field, and still writes the overwrite
    warning: the test is on the key, not on the value. *)
Theorem register_same_value_only_warns w this services key v :
  is_locator w this services →
  get this key w = (Return v, w) →
  ∃ w', register this key v w = (Return (), w') ∧
    heap w' = heap w ∧
    ServiceLocator_instance w' = ServiceLocator_instance w ∧
    console w' = console w ++ [overwrite_warning key].
Proof.
  intros Hthis Hget. rewrite (get_eq _ _ _ Hthis) in Hget.
  destruct (services !! key) as [v'|] eqn:Hk; [|done].
  injection Hget as ->.
  exists (registered w this services key v). split; [by apply register_eq|].
  unfold registered. simpl. rewrite Hk.
  rewrite (bool_decide_eq_true_2 (is_Some (Some v))) by eauto.
  split; [|done]. rewrite (insert_id services key v Hk).
  by apply insert_id.
Qed.

Lemma register_same_value_only_warns_witness :
  is_locator logger_registry 1%positive {["Logger" := VRef 7%positive]} ∧
  get 1%positive "Logger" logger_registry = (Return (VRef 7%positive), logger_registry) ∧
  ∃ w', register 1%positive "Logger" (VRef 7%positive) logger_registry
          = (Return (), w') ∧
    heap w' = heap logger_registry ∧
    ServiceLocator_instance w' = ServiceLocator_instance logger_registry ∧
    console w' = console logger_registry ++ [overwrite_warning "Logger"].
Proof.
  split; [reflexivity|]. split; [reflexivity|].
  apply (register_same_value_only_warns logger_registry 1%positive
           {["Logger" := VRef 7%positive]} "Logger" (VRef 7%positive));
    reflexivity.
Defined.



(** ** The messages *)

(** X11.  The two messages name their key and nothing else: different
    keys give different not-found messages and different overwrite
    warnings, and the overwrite warning contains its key. *)
Theorem messages_identify_the_key k1 k2 :
  (not_found_message k1 = not_found_message k2 → k1 = k2) ∧
  (overwrite_warning k1 = overwrite_warning k2 → k1 = k2) ∧
  includes k1 (overwrite_warning k1) = true.
Proof.
  split; [|split].
  - unfold not_found_message. intros H.
    apply (inj (String.app _)) in H. by apply string_app_inj_r in H.
  - unfold overwrite_warning. intros H.
    apply (inj (String.app _)) in H. by apply string_app_inj_r in H.
  - apply includes_app.
Qed.
